(** * The entity synchronisation layer: the [DB] class

    A shallow embedding of the [DB] class: [saveMany], [saveOne],
    [deleteAllEntities], [deleteEntity] and [close].  The class is a thin
    layer over an ORM connection; the connection, its repositories, the
    model registry, [getColumns] and [compareRecords] are imported by the
    source and are described here by small executable models. *)

From stdpp Require Import base option list strings pretty gmap fin_maps.

Local Open Scope string_scope.
Local Open Scope list_scope.

(** ** Data model *)

(** A JavaScript value held in a record field. *)
Inductive value : Type :=
  | VNull
  | VBool (b : bool)
  | VNum (n : Z)
  | VStr (s : string).

#[global] Instance value_eq_dec : EqDecision value.
Proof. solve_decision. Defined.

(** An entity record is a JS object: own property name to value. *)
Abbreviation record := (gmap string value).

(** [IEntityMap]: entity id to (partial) record, and [ITableMap]: table name
    to entity map.  Both are JS objects that the source only walks through
    [Object.keys]; they are kept as association lists in [Object.keys]
    order.  [Object.keys] never yields a key twice, which the theorems
    that need it state as [NoDup] on the first components. *)
Definition IEntityMap : Type := list (string * record).
Definition ITableMap : Type := list (string * IEntityMap).

(** [IDBDeleteSpec]: [entities] maps a table name to the ids to delete. *)
Record IDBDeleteSpec : Type := { entities : list (string * list string) }.

(** Modelled from the spec: an entry of [modelMap], the registered schema of
    a table.  The model classes are not part of the sources; a model is
    described by what the spec says of a schema: the columns that take part
    in comparison and the default each column of a fresh entity holds. *)
Record Model : Type := {
  model_columns : gset string;
  model_defaults : record
}.

(** Modelled from the spec: [getColumns(Model)], the comparable column set
    of the table. *)
Definition getColumns (M : Model) : gset string := model_columns M.

(** The property key a value turns into ([String(v)]). *)
Definition to_key (v : value) : string :=
  match v with
  | VNull => "null"
  | VBool true => "true"
  | VBool false => "false"
  | VNum n => pretty n
  | VStr s => s
  end.

(** The primary key of a row, as the store sees it. *)
Definition row_id (r : record) : option string := to_key <$> r !! "id".

(** [_.pluck(rows, "id")]: a row without the property yields [undefined]. *)
Definition pluck_id (rows : list record) : list (option value) :=
  map (λ r : record, r !! "id") rows.

(** ** The connection *)

Inductive StoreError : Type :=
  | StoreClosed
  | IOFailure (tableName : string)
  | MissingId (tableName : string).

#[global] Instance StoreError_eq_dec : EqDecision StoreError.
Proof. solve_decision. Defined.

(** Modelled from the spec: the ORM connection behind [this.conn].  The
    stored rows are keyed by table and primary key.  [failing] lists the
    tables on which the storage engine currently rejects writes (the spec's
    IOFailure); after [close] no operation is valid (the spec's "store
    closed"). *)
Record Connection : Type := {
  isConnected : bool;
  storage : gmap (string * string) record;
  failing : gset string
}.

Definition with_storage (c : Connection) (s : gmap (string * string) record)
  : Connection :=
  {| isConnected := isConnected c; storage := s; failing := failing c |}.

(** What the outside world can observe of a call, in order. *)
Inductive effect : Type :=
  | LogSkip (tableName : string) (n : nat)
  | LogSaved (tableName : string) (saved total upToDate : nat)
  | LogSkipDelete (tableName : string) (n : nat)
  | LogSkipSingleDelete (tableName : string)
  | PersistOk (tableName : string) (rows : list record)
  | PersistFailed (tableName : string) (rows : list record) (e : StoreError)
  | RemoveOk (tableName : string) (ids : list string)
  | RemoveFailed (tableName : string) (ids : list string) (e : StoreError)
  | Dispatch (tableName : string) (updated : list (option value)).

(** ** Effects: connection state, rejection, trace *)

(** An async method body: from the connection to either a rejection or a
    value, the connection afterwards and the effects performed. *)
Definition Eff (A : Type) : Type :=
  Connection → (StoreError + A) * Connection * list effect.

Definition eff_ret {A} (a : A) : Eff A := λ c, (inr a, c, []).

Definition eff_bind {A B} (f : A → Eff B) (m : Eff A) : Eff B := λ c,
  match m c with
  | (inl e, c1, tr1) => (inl e, c1, tr1)
  | (inr a, c1, tr1) =>
      match f a c1 with
      | (r, c2, tr2) => (r, c2, tr1 ++ tr2)
      end
  end.

#[global] Instance Eff_ret : MRet Eff := @eff_ret.
#[global] Instance Eff_bind : MBind Eff := @eff_bind.

Definition emit (ev : effect) : Eff unit := λ c, (inr tt, c, [ev]).

(** ** Repository operations *)

(** Modelled from the spec: fetchByIds, the query
    [where e.id in (:entityIds)] followed by [_.indexBy(savedRows, "id")]:
    the stored rows of the table whose primary key is among [entityIds],
    keyed by it.  Missing ids are simply absent from the result. *)
Definition indexed (tableName : string) (entityIds : list string)
    (s : gmap (string * string) record) : gmap string record :=
  list_to_map
    (omap (λ id, (λ r, (id, r)) <$> s !! (tableName, id)) entityIds).

Definition fetchByIds (tableName : string) (entityIds : list string)
  : Eff (gmap string record) := λ c,
  if isConnected c
  then (inr (indexed tableName entityIds (storage c)), c, [])
  else (inl StoreClosed, c, []).

(** Modelled from the spec: upsertMany, [repo.persist(rows)]: inserts new
    rows and replaces existing rows by id.  A row that carries no id cannot
    be keyed and makes the call fail. *)
Fixpoint upsert (tableName : string) (rows : list record)
    (s : gmap (string * string) record)
  : option (gmap (string * string) record) :=
  match rows with
  | [] => Some s
  | r :: rest =>
      match row_id r with
      | Some k => upsert tableName rest (<[(tableName, k) := r]> s)
      | None => None
      end
  end.

(** The call is all-or-nothing: a failure leaves the table as it was. *)
Definition persist (tableName : string) (rows : list record) : Eff unit := λ c,
  if negb (isConnected c)
  then (inl StoreClosed, c, [PersistFailed tableName rows StoreClosed])
  else if bool_decide (tableName ∈ failing c)
  then (inl (IOFailure tableName), c,
        [PersistFailed tableName rows (IOFailure tableName)])
  else match upsert tableName rows (storage c) with
       | Some s => (inr tt, with_storage c s, [PersistOk tableName rows])
       | None => (inl (MissingId tableName), c,
                  [PersistFailed tableName rows (MissingId tableName)])
       end.

(** Modelled from the spec: deleteMany, [repo.remove(toRemove)]: removes
    rows by id; an id that is not stored is left alone. *)
Definition remove_keys (tableName : string) (ids : list string)
    (s : gmap (string * string) record) : gmap (string * string) record :=
  foldl (λ acc id, delete (tableName, id) acc) s ids.

Definition remove (tableName : string) (toRemove : list record) : Eff unit :=
  λ c,
  let ids := omap row_id toRemove in
  if negb (isConnected c)
  then (inl StoreClosed, c, [RemoveFailed tableName ids StoreClosed])
  else if bool_decide (tableName ∈ failing c)
  then (inl (IOFailure tableName), c,
        [RemoveFailed tableName ids (IOFailure tableName)])
  else (inr tt, with_storage c (remove_keys tableName ids (storage c)),
        [RemoveOk tableName ids]).

(** [repo.create(entity)] and [repo.merge(...objects)] of the ORM: both make
    a fresh entity of the model and copy the given objects' properties into
    it, later objects over earlier ones.  Modelled from the spec: the fresh
    entity holds the schema's default in every column that has one. *)
Definition create (M : Model) (entity : record) : record :=
  entity ∪ model_defaults M.

Definition merge (M : Model) (objects : list record) : record :=
  foldl (λ acc o, o ∪ acc) (model_defaults M) objects.

(** Modelled from the spec: [compareRecords(existing, incoming, columns)],
    the record comparator: only fields present in [incoming] are compared,
    only on comparable columns; true iff every compared field is equal. *)
Definition compareRecords (existing incoming : record) (columns : gset string)
  : bool :=
  bool_decide
    (map_Forall (λ k v, k ∈ columns → existing !! k = Some v) incoming).

(** ** The [DB] class *)

Section DB.

(** [modelMap]: the registered models, by table name.  The registry is
    imported by the source; it is fixed for the process lifetime. *)
Variable modelMap : gmap string Model.

(** One turn of the inner loop of [saveMany], [for (const id of entityIds)]:
    [acc] is [(rows, numUpToDate)]. *)
Definition visit (M : Model) (existingEntities : gmap string record)
    (acc : list record * nat) (entry : string * record) : list record * nat :=
  let '(rows, numUpToDate) := acc in
  let '(id, entity) := entry in
  match existingEntities !! id with
  | Some existingEntity =>
      if compareRecords existingEntity entity (getColumns M)
      then (rows, S numUpToDate)
      else (rows ++ [merge M [entity]], numUpToDate)
  | None =>
      let existingEntity := <["id" := VStr id]> (create M entity) in
      (rows ++ [existingEntity], numUpToDate)
  end.

Definition collect (M : Model) (existingEntities : gmap string record)
    (entities : IEntityMap) : list record * nat :=
  foldl (visit M existingEntities) ([], 0) entities.

(** The body of the outer loop of [saveMany], for one table. *)
Definition saveTable (tableName : string) (entities : IEntityMap) : Eff unit :=
  let entityIds := entities.*1 in
  match modelMap !! tableName with
  | None => emit (LogSkip tableName (length entityIds))
  | Some M =>
      existingEntities ← fetchByIds tableName entityIds;
      let '(rows, numUpToDate) := collect M existingEntities entities in
      (if bool_decide (0 < length rows)
       then persist tableName rows;;
            emit (Dispatch tableName (pluck_id rows))
       else mret tt);;
      emit (LogSaved tableName (length entityIds - numUpToDate)
              (length entityIds) numUpToDate)
  end.

(** [saveMany]: the tables in [Object.keys] order; a rejected [await] ends
    the method. *)
Fixpoint saveMany (entityTables : ITableMap) : Eff unit :=
  match entityTables with
  | [] => mret tt
  | (tableName, entities) :: rest =>
      saveTable tableName entities;; saveMany rest
  end.

(** [saveOne]: [saveMany] on the object literal
    [{[tableName]: {[id]: record}}]. *)
Definition saveOne (tableName id : string) (r : record) : Eff unit :=
  saveMany [(tableName, [(id, r)])].

(** The body of the loop of [deleteAllEntities], for one table. *)
Definition deleteTable (tableName : string) (ids : list string) : Eff unit :=
  match modelMap !! tableName with
  | None => emit (LogSkipDelete tableName (length ids))
  | Some _ =>
      let toRemove := map (λ id, ({[ "id" := VStr id ]} : record)) ids in
      remove tableName toRemove
  end.

Fixpoint deleteTables (l : list (string * list string)) : Eff unit :=
  match l with
  | [] => mret tt
  | (tableName, ids) :: rest => deleteTable tableName ids;; deleteTables rest
  end.

Definition deleteAllEntities (deleteSpec : IDBDeleteSpec) : Eff unit :=
  deleteTables (entities deleteSpec).

Definition deleteEntity (tableName id : string) : Eff unit :=
  match modelMap !! tableName with
  | None => emit (LogSkipSingleDelete tableName)
  | Some _ => remove tableName [ ({[ "id" := VStr id ]} : record) ]
  end.

End DB.

(** ** Open and close *)

(** The [DB] object: its connection and the path of the file on disk. *)
Record DB : Type := {
  conn : Connection;
  dbPath : option string
}.

Inductive lifecycle_log : Type :=
  | LogClosing (path : option string)
  | LogClosed.

(** Modelled from the spec: [conn.close()] of the ORM.  After close no
    further operation on the connection is valid: each fails with the
    store-closed error, and so does closing it again. *)
Definition conn_close (c : Connection) : StoreError + Connection :=
  if isConnected c
  then inr {| isConnected := false; storage := storage c;
              failing := failing c |}
  else inl StoreClosed.

(** [close]: logs, awaits [this.conn.close()], logs, clears [dbPath].  A
    rejected [await] leaves the method before the second log line. *)
Definition close (db : DB) : (StoreError + unit) * DB * list lifecycle_log :=
  match conn_close (conn db) with
  | inr c => (inr tt, {| conn := c; dbPath := None |},
              [LogClosing (dbPath db); LogClosed])
  | inl e => (inl e, db, [LogClosing (dbPath db)])
  end.


(** ** Notions used to state the properties *)

(** The row one entry of a table's batch adds to the queue, if any: what
    one turn of the inner loop pushes. *)
Definition queued (M : Model) (existingEntities : gmap string record)
    (entry : string * record) : option record :=
  match existingEntities !! entry.1 with
  | Some existingEntity =>
      if compareRecords existingEntity entry.2 (getColumns M)
      then None
      else Some (merge M [entry.2])
  | None => Some (<["id" := VStr entry.1]> (create M entry.2))
  end.

(** The [updated] lists of the commit events dispatched for a table, in the
    order they were dispatched. *)
Definition dispatched_for (tableName : string) (tr : list effect)
  : list (list (option value)) :=
  omap (λ ev, match ev with
              | Dispatch t updated =>
                  if decide (t = tableName) then Some updated else None
              | _ => None
              end) tr.


(** Every record of the entity map carries its own id: the [id] property
    is the key the record is filed under. *)
Definition carries_id (ents : IEntityMap) : Prop :=
  Forall (λ entry : string * record, entry.2 !! "id" = Some (VStr entry.1)) ents.

(** An id is listed for deletion under a table of the spec. *)
Definition listed (l : list (string * list string)) (t k : string) : Prop :=
  ∃ ids, (t, ids) ∈ l ∧ k ∈ ids.

(** Every record of the entity map has a stored row that the comparator
    finds up to date. *)
Definition settled (M : Model) (t : string) (ents : IEntityMap)
    (s : gmap (string * string) record) : Prop :=
  ∀ i e, (i, e) ∈ ents →
         ∃ r, s !! (t, i) = Some r ∧ compareRecords r e (getColumns M) = true.

(** The rows left by a deletion spec: for each entry in turn, the listed
    ids are dropped from the table when the table is registered. *)
Definition purge (modelMap : gmap string Model)
    (l : list (string * list string)) (s : gmap (string * string) record)
  : gmap (string * string) record :=
  foldl (λ acc entry,
           match modelMap !! entry.1 with
           | None => acc
           | Some _ => remove_keys entry.1 entry.2 acc
           end) s l.

(** The trace a deletion spec leaves on a store that accepts it. *)
Definition purge_trace (modelMap : gmap string Model)
    (l : list (string * list string)) : list effect :=
  map (λ entry : string * list string,
         match modelMap !! entry.1 with
         | None => LogSkipDelete entry.1 (length entry.2)
         | Some _ => RemoveOk entry.1 entry.2
         end) l.

(** ** A small registry and store to run the definitions on *)

Module Sample.

Definition gamesModel : Model :=
  {| model_columns := {[ "id"; "title"; "shortText" ]};
     model_defaults := {[ "shortText" := VStr "" ]} |}.

Definition usersModel : Model :=
  {| model_columns := {[ "id"; "a"; "b" ]};
     model_defaults := ∅ |}.

Definition models : gmap string Model :=
  {[ "games" := gamesModel; "users" := usersModel ]}.

Definition empty_store : Connection :=
  {| isConnected := true; storage := ∅; failing := ∅ |}.

Definition game (id title : string) : record :=
  {[ "id" := VStr id; "title" := VStr title ]}.

Definition stored_game (id title : string) : record :=
  {[ "id" := VStr id; "title" := VStr title; "shortText" := VStr "" ]}.

(** Two games already stored. *)
Definition two_games : Connection :=
  {| isConnected := true;
     storage := {[ ("games", "1") := stored_game "1" "Alpha";
                   ("games", "2") := stored_game "2" "Beta" ]};
     failing := ∅ |}.

(** Three new games and the two stored ones, unchanged. *)
Definition five_games : ITableMap :=
  [ ("games", [ ("1", game "1" "Alpha"); ("2", game "2" "Beta");
                ("3", game "3" "Gamma"); ("4", game "4" "Delta");
                ("5", game "5" "Epsilon") ]) ].

(** A batch with a table nobody registered between two known ones. *)
Definition mixed_batch : ITableMap :=
  [ ("games", [ ("3", game "3" "Gamma") ]);
    ("mystery", [ ("9", {[ "id" := VStr "9" ]}) ]);
    ("users", [ ("7", {[ "id" := VStr "7"; "a" := VStr "x" ]}) ]) ].






(** A batch in which every record carries its own id. *)
Definition tidy_batch : ITableMap :=
  [ ("games", [ ("1", game "1" "Alpha II"); ("3", game "3" "Gamma") ]);
    ("mystery", [ ("9", {[ "id" := VStr "9" ]}) ]);
    ("users", [ ("7", {[ "id" := VStr "7"; "a" := VStr "x" ]}) ]) ].

(** The storage engine rejects writes to [games]. *)
Definition games_failing : Connection :=
  {| isConnected := true; storage := ∅; failing := {[ "games" ]} |}.

Definition games_then_users : ITableMap :=
  [ ("games", [ ("3", game "3" "Gamma") ]);
    ("users", [ ("7", {[ "id" := VStr "7"; "a" := VStr "x" ]}) ]) ].

Definition users_only : ITableMap :=
  [ ("users", [ ("7", {[ "id" := VStr "7"; "a" := VStr "x" ]}) ]) ].

(** Five users stored; the deletion spec [{users: [5]}]. *)
Definition user (id : string) : record := {[ "id" := VStr id ]}.

Definition some_users : Connection :=
  {| isConnected := true;
     storage := {[ ("users", "4") := user "4"; ("users", "5") := user "5" ]};
     failing := ∅ |}.

Definition delete_user_5 : IDBDeleteSpec :=
  {| entities := [ ("users", [ "5" ]) ] |}.

Definition open_db : DB :=
  {| conn := empty_store; dbPath := Some "/tmp/butler.db" |}.

End Sample.

(** ** Opening the store *)




(** ** Callers *)

(** Saving the records of one table one call at a time, in [Object.keys]
    order: [await db.saveOne(tableName, id, record)] for each. *)
Fixpoint saveEach (modelMap : gmap string Model) (tableName : string)
    (ents : IEntityMap) : Eff unit :=
  match ents with
  | [] => mret tt
  | (id, r) :: rest =>
      saveOne modelMap tableName id r;; saveEach modelMap tableName rest
  end.

(** What one [saveOne] does to the stored rows when it is accepted. *)
Definition stored_after_one (M : Model) (t : string)
    (s : gmap (string * string) record) (entry : string * record)
  : gmap (string * string) record :=
  match queued M (indexed t [entry.1] s) entry with
  | Some r => <[(t, entry.1) := r]> s
  | None => s
  end.

(** The effects of a deletion. *)
Definition is_delete_effect (ev : effect) : Prop :=
  match ev with
  | LogSkipDelete _ _ | RemoveOk _ _ | RemoveFailed _ _ _ => True
  | _ => False
  end.


Module Demo.

(** A store that is open but rejects writes to [users] and holds one game
    and one user. *)
Definition users_failing : Connection :=
  {| isConnected := true;
     storage := {[ ("games", "1") := Sample.stored_game "1" "Alpha";
                   ("users", "4") := Sample.user "4" ]};
     failing := {[ "users" ]} |}.






End Demo.
(** ** Basic facts about the effects *)

Lemma eff_bind_run {A B} (f : A → Eff B) (m : Eff A) (c : Connection) :
  (m ≫= f) c =
  match m c with
  | (inl e, c1, tr1) => (inl e, c1, tr1)
  | (inr a, c1, tr1) =>
      match f a c1 with (r, c2, tr2) => (r, c2, tr1 ++ tr2) end
  end.
Proof. reflexivity. Qed.

Section DBFacts.

Variable modelMap : gmap string Model.

Lemma saveMany_cons (tableName : string) (ents : IEntityMap)
    (rest : ITableMap) (c : Connection) :
  saveMany modelMap ((tableName, ents) :: rest) c =
  match saveTable modelMap tableName ents c with
  | (inl e, c1, tr1) => (inl e, c1, tr1)
  | (inr _, c1, tr1) =>
      match saveMany modelMap rest c1 with
      | (r, c2, tr2) => (r, c2, tr1 ++ tr2)
      end
  end.
Proof. reflexivity. Qed.

(** Running a batch is running its first part, then the rest from where
    the first part left the connection, unless the first part rejected. *)
Lemma saveMany_app (pre post : ITableMap) (c : Connection) :
  saveMany modelMap (pre ++ post) c =
  match saveMany modelMap pre c with
  | (inl e, c1, tr1) => (inl e, c1, tr1)
  | (inr _, c1, tr1) =>
      match saveMany modelMap post c1 with
      | (r, c2, tr2) => (r, c2, tr1 ++ tr2)
      end
  end.
Proof.
  revert c. induction pre as [|[t ents] pre IH]; intros c.
  - simpl. destruct (saveMany modelMap post c) as [[r c2] tr2]. reflexivity.
  - rewrite <- app_comm_cons, !saveMany_cons.
    destruct (saveTable modelMap t ents c) as [[[e|[]] c1] tr1]; [done|].
    rewrite IH.
    destruct (saveMany modelMap pre c1) as [[[e|[]] c2] tr2]; [done|].
    destruct (saveMany modelMap post c2) as [[r c3] tr3].
    by rewrite app_assoc.
Qed.

Lemma saveTable_unknown (tableName : string) (ents : IEntityMap)
    (c : Connection) :
  modelMap !! tableName = None →
  saveTable modelMap tableName ents c
  = (inr tt, c, [LogSkip tableName (length ents)]).
Proof.
  intros Hnone. unfold saveTable. rewrite Hnone, length_fmap. reflexivity.
Qed.

(** What [persist] may touch: rows of its own table only. *)
Lemma upsert_other_table (t : string) (rows : list record)
    (s s' : gmap (string * string) record) (t' k : string) :
  upsert t rows s = Some s' → t' ≠ t → s' !! (t', k) = s !! (t', k).
Proof.
  revert s. induction rows as [|r rows IH]; intros s Hup Hne; simpl in Hup.
  - by simplify_eq.
  - destruct (row_id r) as [kr|]; [|done].
    rewrite (IH _ Hup Hne). apply lookup_insert_ne. congruence.
Qed.

(** A turn of the outer loop leaves the connection open or closed as it
    was, the failing tables as they were, and every other table alone; a
    rejected turn leaves the whole connection as it was. *)
Lemma saveTable_frame (t : string) (ents : IEntityMap) (c c' : Connection)
    (r : StoreError + unit) (tr : list effect) :
  saveTable modelMap t ents c = (r, c', tr) →
  isConnected c' = isConnected c ∧ failing c' = failing c ∧
  (∀ t' k, t' ≠ t → storage c' !! (t', k) = storage c !! (t', k)) ∧
  (∀ e, r = inl e → c' = c) ∧
  (modelMap !! t = None → c' = c).
Proof.
  unfold saveTable. destruct (modelMap !! t) as [M|].
  2:{ intros [= <- <- <-]. done. }
  rewrite eff_bind_run. unfold fetchByIds.
  destruct (isConnected c) eqn:Hconn.
  2:{ intros [= <- <- <-]. rewrite Hconn. repeat split; try done. }
  destruct (collect M _ ents) as [rows n].
  rewrite eff_bind_run. case_bool_decide as Hlen.
  - rewrite eff_bind_run. unfold persist. rewrite Hconn. simpl negb. cbv iota.
    case_bool_decide as Hfail.
    { intros [= <- <- <-]. rewrite Hconn. repeat split; try done. }
    destruct (upsert t rows (storage c)) as [s|] eqn:Hup.
    + cbn. intros [= <- <- <-]. cbn. repeat split; try done.
      intros t' k Hne. by eapply upsert_other_table.
    + intros [= <- <- <-]. rewrite Hconn. repeat split; try done.
  - cbn. intros [= <- <- <-]. rewrite Hconn. repeat split; try done.
Qed.

Lemma saveMany_frame (batch : ITableMap) (c c' : Connection)
    (r : StoreError + unit) (tr : list effect) :
  saveMany modelMap batch c = (r, c', tr) →
  isConnected c' = isConnected c ∧ failing c' = failing c ∧
  (∀ t' k, (t' ∉ batch.*1 ∨ modelMap !! t' = None) →
           storage c' !! (t', k) = storage c !! (t', k)).
Proof.
  revert c c' r tr. induction batch as [|[t ents] batch IH]; intros c c' r tr.
  - cbn. intros [= <- <- <-]. done.
  - rewrite saveMany_cons.
    destruct (saveTable modelMap t ents c) as [[[e|[]] c1] tr1] eqn:Hst.
    + intros [= <- <- <-].
      destruct (saveTable_frame _ _ _ _ _ _ Hst) as (? & ? & _ & Hrej & _).
      by rewrite (Hrej e eq_refl).
    + destruct (saveMany modelMap batch c1) as [[r2 c2] tr2] eqn:Hsm.
      intros [= <- <- <-].
      destruct (saveTable_frame _ _ _ _ _ _ Hst) as (Hc & Hf & Hother & _ & Hunk).
      destruct (IH _ _ _ _ Hsm) as (Hc2 & Hf2 & Hother2).
      split; [congruence|]. split; [congruence|].
      intros t' k Ht'. rewrite Hother2.
      * destruct (decide (t' = t)) as [->|Hne]; [|by apply Hother].
        destruct Ht' as [Hnotin|Hnone]; [|by rewrite (Hunk Hnone)].
        exfalso. apply Hnotin. cbn. left.
      * destruct Ht' as [Hnotin|Hnone]; [left|by right].
        intros Hin. apply Hnotin. cbn. by right.
Qed.

End DBFacts.

(** ** The fetch, the comparator and the inner loop *)

Lemma indexed_lookup (t : string) (ids : list string)
    (s : gmap (string * string) record) (id : string) :
  indexed t ids s !! id = if decide (id ∈ ids) then s !! (t, id) else None.
Proof.
  unfold indexed. induction ids as [|x ids IH]; cbn [omap list_omap].
  - rewrite decide_False by (by intros ?%elem_of_nil). apply lookup_empty.
  - fold (omap (λ id0, (λ r, (id0, r)) <$> s !! (t, id0)) ids).
    destruct (s !! (t, x)) as [r|] eqn:Hx; cbn [fmap option_fmap option_map].
    + cbn [list_to_map foldr]. destruct (decide (id = x)) as [->|Hne].
      * rewrite lookup_insert_eq, decide_True by (by left). done.
      * rewrite lookup_insert_ne by done. rewrite IH.
        destruct (decide (id ∈ ids)).
        -- rewrite decide_True by (by right). done.
        -- rewrite decide_False by (by intros [?|?]%elem_of_cons). done.
    + rewrite IH. destruct (decide (id = x)) as [->|Hne].
      * rewrite Hx. by repeat case_decide.
      * destruct (decide (id ∈ ids)).
        -- rewrite decide_True by (by right). done.
        -- rewrite decide_False by (by intros [?|?]%elem_of_cons). done.
Qed.

Lemma indexed_lookup_entry (t : string) (ents : IEntityMap)
    (s : gmap (string * string) record) (i : string) (e : record) :
  (i, e) ∈ ents → indexed t ents.*1 s !! i = s !! (t, i).
Proof.
  intros Hin. rewrite indexed_lookup, decide_True; [done|].
  apply list_elem_of_fmap. by exists (i, e).
Qed.




Lemma merge_single (M : Model) (e : record) :
  merge M [e] = e ∪ model_defaults M.
Proof. reflexivity. Qed.

Lemma visit_queued (M : Model) (ex : gmap string record)
    (rows : list record) (n : nat) (entry : string * record) :
  visit M ex (rows, n) entry =
  match queued M ex entry with
  | Some r => (rows ++ [r], n)
  | None => (rows, S n)
  end.
Proof.
  destruct entry as [i e]. unfold visit, queued. cbn [fst snd].
  destruct (ex !! i) as [old|]; [|done].
  by destruct (compareRecords old e (getColumns M)).
Qed.

Lemma foldl_visit (M : Model) (ex : gmap string record) (ents : IEntityMap)
    (rows : list record) (n : nat) :
  (foldl (visit M ex) (rows, n) ents).1 = rows ++ omap (queued M ex) ents ∧
  (foldl (visit M ex) (rows, n) ents).2 + length (omap (queued M ex) ents)
  = n + length ents.
Proof.
  revert rows n. induction ents as [|entry ents IH]; intros rows n.
  - cbn. rewrite app_nil_r. split; [done|lia].
  - cbn [foldl]. rewrite visit_queued. cbn [omap list_omap].
    destruct (queued M ex entry) as [r|] eqn:Hq.
    + destruct (IH (rows ++ [r]) n) as [-> Hn]. rewrite <- app_assoc.
      split; [done|]. cbn [length]. lia.
    + destruct (IH rows (S n)) as [-> Hn]. split; [done|].
      cbn [length]. lia.
Qed.

(** The queue is what the entries contribute, in [Object.keys] order, and
    every entry either contributes a row or counts as up to date. *)
Lemma collect_queued (M : Model) (ex : gmap string record) (ents : IEntityMap) :
  (collect M ex ents).1 = omap (queued M ex) ents ∧
  (collect M ex ents).2 + length (collect M ex ents).1 = length ents.
Proof.
  unfold collect. destruct (foldl_visit M ex ents [] 0) as [H1 H2].
  split; [done|]. rewrite H1. cbn [app]. lia.
Qed.

(** ** One table of a batch *)

Section TableFacts.

Variable modelMap : gmap string Model.

(** The turn of the outer loop for a registered table on an open
    connection, with the queue written out. *)
Lemma saveTable_known (t : string) (ents : IEntityMap) (M : Model)
    (c : Connection) :
  modelMap !! t = Some M →
  isConnected c = true →
  saveTable modelMap t ents c =
  let rows := omap (queued M (indexed t ents.*1 (storage c))) ents in
  if bool_decide (0 < length rows)
  then match persist t rows c with
       | (inl e, c1, tr1) => (inl e, c1, tr1)
       | (inr _, c1, tr1) =>
           (inr tt, c1,
            tr1 ++ [Dispatch t (pluck_id rows);
                    LogSaved t (length rows) (length ents)
                      (length ents - length rows)])
       end
  else (inr tt, c, [LogSaved t 0 (length ents) (length ents)]).
Proof.
  intros HM Hconn. unfold saveTable. rewrite HM, eff_bind_run.
  unfold fetchByIds. rewrite Hconn.
  destruct (collect_queued M (indexed t ents.*1 (storage c)) ents)
    as [Hrows Hcount].
  destruct (collect M (indexed t ents.*1 (storage c)) ents) as [rows n].
  cbn [fst snd] in Hrows, Hcount. subst rows. cbn zeta.
  rewrite length_fmap.
  set (rows := omap _ ents) in *.
  rewrite eff_bind_run. case_bool_decide as Hlen.
  - rewrite eff_bind_run.
    destruct (persist t rows c) as [[[e|[]] c1] tr1]; [done|].
    cbn. replace (length ents - n) with (length rows) by lia.
    replace (length ents - length rows) with n by lia.
    by rewrite <- app_assoc.
  - cbn. assert (length rows = 0) as Hz by lia. rewrite Hz in Hcount.
    replace n with (length ents) by lia. by rewrite Nat.sub_diag.
Qed.

(** On a closed connection the query of a registered table is rejected. *)
Lemma saveTable_closed (t : string) (ents : IEntityMap) (M : Model)
    (c : Connection) :
  modelMap !! t = Some M →
  isConnected c = false →
  saveTable modelMap t ents c = (inl StoreClosed, c, []).
Proof.
  intros HM Hconn. unfold saveTable. rewrite HM, eff_bind_run.
  unfold fetchByIds. by rewrite Hconn.
Qed.

Lemma persist_ok (t : string) (rows : list record) (c c1 : Connection)
    (tr : list effect) :
  persist t rows c = (inr tt, c1, tr) →
  isConnected c = true ∧ (t ∉ failing c) ∧ tr = [PersistOk t rows] ∧
  (∃ s, upsert t rows (storage c) = Some s ∧ c1 = with_storage c s).
Proof.
  unfold persist. destruct (isConnected c); cbn [negb]; [|done].
  case_bool_decide; [done|].
  destruct (upsert t rows (storage c)) as [s|]; [|done].
  intros [= <- <-]. repeat split; eauto.
Qed.

Lemma persist_rejected (t : string) (rows : list record) (c c1 : Connection)
    (e : StoreError) (tr : list effect) :
  persist t rows c = (inl e, c1, tr) →
  c1 = c ∧ tr = [PersistFailed t rows e].
Proof.
  unfold persist. destruct (isConnected c); cbn [negb].
  - case_bool_decide; [by intros [= <- <- <-]|].
    destruct (upsert t rows (storage c)); [done|]. by intros [= <- <- <-].
  - by intros [= <- <- <-].
Qed.

(** The trace of one turn: at most one commit event, for the table of the
    turn, right after the successful write of the queue. *)
Lemma saveTable_trace (t : string) (ents : IEntityMap) (c c' : Connection)
    (r : StoreError + unit) (tr : list effect) :
  saveTable modelMap t ents c = (r, c', tr) →
  (∃ n, tr = [LogSkip t n]) ∨
  (∃ n, tr = [LogSaved t 0 n n]) ∨
  (∃ rows e, r = inl e ∧ (tr = [] ∨ tr = [PersistFailed t rows e])) ∨
  (∃ rows n m k, r = inr tt ∧ 0 < length rows ∧
     tr = [PersistOk t rows; Dispatch t (pluck_id rows); LogSaved t n m k]).
Proof.
  destruct (modelMap !! t) as [M|] eqn:HM.
  2:{ rewrite saveTable_unknown by done. intros [= <- <- <-]. eauto. }
  destruct (isConnected c) eqn:Hconn.
  2:{ rewrite (saveTable_closed _ _ M) by done. intros [= <- <- <-].
      right. right. left. exists [], StoreClosed. eauto. }
  rewrite (saveTable_known _ _ M) by done. cbn zeta.
  set (rows := omap _ ents). case_bool_decide as Hlen.
  - destruct (persist t rows c) as [[[e|[]] c1] tr1] eqn:Hp.
    + intros [= <- <- <-]. apply persist_rejected in Hp as [_ ->].
      right. right. left. exists rows, e. eauto.
    + intros [= <- <- <-]. apply persist_ok in Hp as (_ & _ & -> & _).
      right. right. right. cbn. eauto 10.
  - intros [= <- <- <-]. eauto.
Qed.

End TableFacts.

(** ** Unknown tables *)

(** C4. A table name with no registered model does not make the call
    fail: wherever it stands in the batch, its turn leaves the connection
    as the tables before it left it, writes the line that reports the skip
    with the number of records skipped, and the loop goes on with the
    tables after it; no row of that table is ever written by the call. *)
Theorem unknown_table_is_skipped (modelMap : gmap string Model)
    (t : string) (ents : IEntityMap) (pre post : ITableMap) (c : Connection) :
  modelMap !! t = None →
  saveTable modelMap t ents c = (inr tt, c, [LogSkip t (length ents)]) ∧
  saveMany modelMap (pre ++ (t, ents) :: post) c =
    match saveMany modelMap pre c with
    | (inl e, c1, tr1) => (inl e, c1, tr1)
    | (inr _, c1, tr1) =>
        match saveMany modelMap post c1 with
        | (r, c2, tr2) => (r, c2, tr1 ++ LogSkip t (length ents) :: tr2)
        end
    end ∧
  ∀ k, storage (saveMany modelMap (pre ++ (t, ents) :: post) c).1.2 !! (t, k)
       = storage c !! (t, k).
Proof.
  intros Hnone. split; [by apply saveTable_unknown|]. split.
  - rewrite saveMany_app.
    destruct (saveMany modelMap pre c) as [[[e|[]] c1] tr1]; [done|].
    rewrite saveMany_cons, saveTable_unknown by done.
    by destruct (saveMany modelMap post c1) as [[r c2] tr2].
  - intros k.
    destruct (saveMany modelMap (pre ++ (t, ents) :: post) c)
      as [[r c'] tr] eqn:Hrun.
    destruct (saveMany_frame _ _ _ _ _ _ Hrun) as (_ & _ & Hother).
    cbn [fst snd]. apply Hother. by right.
Qed.

Lemma unknown_table_is_skipped_witness :
  Sample.models !! "mystery" = None ∧
  saveMany Sample.models Sample.mixed_batch Sample.empty_store =
    match saveMany Sample.models [("games", [("3", Sample.game "3" "Gamma")])]
            Sample.empty_store with
    | (inl e, c1, tr1) => (inl e, c1, tr1)
    | (inr _, c1, tr1) =>
        match saveMany Sample.models
                [("users", [("7", {[ "id" := VStr "7"; "a" := VStr "x" ]})])] c1
        with
        | (r, c2, tr2) => (r, c2, tr1 ++ LogSkip "mystery" 1 :: tr2)
        end
    end.
Proof.
  split; [reflexivity|].
  apply (unknown_table_is_skipped Sample.models "mystery"
           [("9", {[ "id" := VStr "9" ]})]
           [("games", [("3", Sample.game "3" "Gamma")])]
           [("users", [("7", {[ "id" := VStr "7"; "a" := VStr "x" ]})])]
           Sample.empty_store).
  reflexivity.
Defined.

(** ** Saving one record *)

(** C10. [saveOne t i r] behaves as [saveMany] on the batch that holds the
    single table [t] with the single record [r] under id [i]: the same
    outcome, the same connection afterwards (so the same stored rows) and
    the same trace (so the same commit events); both are one turn of the
    outer loop for that table. *)
Theorem saveOne_is_singleton_saveMany (modelMap : gmap string Model)
    (t i : string) (r : record) (c : Connection) :
  saveOne modelMap t i r c = saveMany modelMap [(t, [(i, r)])] c ∧
  storage (saveOne modelMap t i r c).1.2
    = storage (saveMany modelMap [(t, [(i, r)])] c).1.2 ∧
  (∀ t', dispatched_for t' (saveOne modelMap t i r c).2
         = dispatched_for t' (saveMany modelMap [(t, [(i, r)])] c).2) ∧
  saveOne modelMap t i r c = saveTable modelMap t [(i, r)] c.
Proof.
  split; [reflexivity|]. split; [reflexivity|]. split; [reflexivity|].
  unfold saveOne. rewrite saveMany_cons.
  destruct (saveTable modelMap t [(i, r)] c) as [[[e|[]] c1] tr1]; [done|].
  cbn. by rewrite app_nil_r.
Qed.

(** ** Records without a stored counterpart *)



(** ** Records with a stored counterpart that differs *)





(** ** Commit events *)

Lemma dispatched_for_app (t : string) (tr1 tr2 : list effect) :
  dispatched_for t (tr1 ++ tr2) = dispatched_for t tr1 ++ dispatched_for t tr2.
Proof. apply omap_app. Qed.

Section CommitFacts.

Variable modelMap : gmap string Model.



End CommitFacts.



(** ** A commit event follows its write *)

Lemma turn_dispatch_guarded (t : string) (tr pre post : list effect)
    (t' : string) (updated : list (option value)) :
  ((∃ n, tr = [LogSkip t n]) ∨
   (∃ n, tr = [LogSaved t 0 n n]) ∨
   (∃ rows e, tr = [] ∨ tr = [PersistFailed t rows e]) ∨
   (∃ rows n m k, 0 < length rows ∧
      tr = [PersistOk t rows; Dispatch t (pluck_id rows); LogSaved t n m k])) →
  tr = pre ++ Dispatch t' updated :: post →
  ∃ rows, pre = [PersistOk t' rows] ∧ updated = pluck_id rows ∧
          0 < length rows.
Proof.
  intros [[n ->]|[[n ->]|[(rows & e & [->| ->])|(rows & n & m & k & Hlen & ->)]]]
    Heq.
  - by destruct pre as [|? [|? ?]].
  - by destruct pre as [|? [|? ?]].
  - by destruct pre.
  - by destruct pre as [|? [|? ?]].
  - destruct pre as [|? [|? [|? [|? ?]]]]; simplify_eq/=. eauto.
Qed.

(** C6. In the trace of a call of [saveMany], a commit event for a table
    comes only right after the successful write of that table's queue: the
    effect just before it is the resolved [repo.persist] of a non-empty
    queue of the same table, and the event carries the ids of exactly those
    rows.  A rejected write is followed by no commit event. *)
Theorem commit_only_after_write (modelMap : gmap string Model)
    (batch : ITableMap) (c c' : Connection) (r : StoreError + unit)
    (tr pre post : list effect) (t : string) (updated : list (option value)) :
  saveMany modelMap batch c = (r, c', tr) →
  tr = pre ++ Dispatch t updated :: post →
  ∃ pre' rows, pre = pre' ++ [PersistOk t rows] ∧
               updated = pluck_id rows ∧ 0 < length rows.
Proof.
  revert c c' r tr pre. induction batch as [|[t1 ents] batch IH];
    intros c c' r tr pre.
  - cbn. intros [= <- <- <-] Heq. by destruct pre.
  - rewrite saveMany_cons. intros Hrun Heq.
    destruct (saveTable modelMap t1 ents c) as [[r1 c1] tr1] eqn:Hst.
    assert (∀ pre1 post1, tr1 = pre1 ++ Dispatch t updated :: post1 →
              ∃ rows, pre1 = [PersistOk t rows] ∧ updated = pluck_id rows ∧
                      0 < length rows) as Hturn.
    { intros pre1 post1. apply (turn_dispatch_guarded t1).
      destruct (saveTable_trace _ _ _ _ _ _ _ Hst)
        as [?|[?|[(rows & e & _ & ?)|(rows & n & m & k & _ & ? & ?)]]];
        eauto 10. }
    destruct r1 as [e|[]].
    + injection Hrun as <- <- <-.
      destruct (Hturn _ _ Heq) as (rows & -> & ? & ?). by exists [], rows.
    + destruct (saveMany modelMap batch c1) as [[r2 c2] tr2] eqn:Hsm.
      injection Hrun as <- <- <-.
      apply app_eq_inv in Heq as [(k & Htr1 & Hk)|(k & Hpre & Htr2)].
      * destruct k as [|ev k].
        -- cbn in Hk. rewrite app_nil_r in Htr1. subst pre.
           destruct (IH _ _ _ _ [] Hsm (eq_sym Hk)) as (pre' & rows & Hnil & _).
           by destruct pre'.
        -- injection Hk as <- ->.
           destruct (Hturn _ _ Htr1) as (rows & -> & ? & ?). by exists [], rows.
      * destruct (IH _ _ _ _ _ Hsm Htr2) as (pre' & rows & -> & ? & ?).
        exists (tr1 ++ pre'), rows. by rewrite Hpre, app_assoc.
Qed.

Lemma commit_only_after_write_witness :
  let run := saveMany Sample.models Sample.five_games Sample.two_games in
  let rows := (collect Sample.gamesModel
                 (indexed "games" ["1"; "2"; "3"; "4"; "5"]
                    (storage Sample.two_games))
                 [ ("1", Sample.game "1" "Alpha"); ("2", Sample.game "2" "Beta");
                   ("3", Sample.game "3" "Gamma"); ("4", Sample.game "4" "Delta");
                   ("5", Sample.game "5" "Epsilon") ]).1 in
  run.2 = [PersistOk "games" rows]
            ++ Dispatch "games" [Some (VStr "3"); Some (VStr "4"); Some (VStr "5")]
            :: [LogSaved "games" 3 5 2] ∧
  ∃ pre' rows', [PersistOk "games" rows] = pre' ++ [PersistOk "games" rows'] ∧
                [Some (VStr "3"); Some (VStr "4"); Some (VStr "5")]
                = pluck_id rows' ∧ 0 < length rows'.
Proof.
  intros run rows.
  assert (run.2 = [PersistOk "games" rows]
            ++ Dispatch "games" [Some (VStr "3"); Some (VStr "4"); Some (VStr "5")]
            :: [LogSaved "games" 3 5 2]) as Htr by (by vm_compute).
  split; [exact Htr|].
  apply (commit_only_after_write Sample.models Sample.five_games
           Sample.two_games run.1.2 run.1.1 run.2 _ [LogSaved "games" 3 5 2]
           "games" _); [by vm_compute|exact Htr].
Defined.

(** ** A rejected write *)

(** C5, as stated, fails: with the storage engine rejecting writes to
    [games], a batch of [games] then [users] is rejected as a whole.  The
    call ends at the failing [await]: [users], which on its own is written
    without trouble, is never processed, and the caller gets the rejection,
    not a list of per-table outcomes. *)
Lemma failed_write_aborts_the_batch :
  saveMany Sample.models Sample.games_then_users Sample.games_failing
  = (inl (IOFailure "games"), Sample.games_failing,
     [PersistFailed "games"
        [ {[ "id" := VStr "3"; "title" := VStr "Gamma";
             "shortText" := VStr "" ]} ]
        (IOFailure "games")]) ∧
  (saveMany Sample.models Sample.users_only Sample.games_failing).1.1 = inr tt ∧
  storage (saveMany Sample.models Sample.users_only Sample.games_failing).1.2
    !! ("users", "7") = Some {[ "id" := VStr "7"; "a" := VStr "x" ]} ∧
  storage (saveMany Sample.models Sample.games_then_users
             Sample.games_failing).1.2 !! ("users", "7") = None.
Proof. by vm_compute. Qed.

(** C5, amended. A rejected turn ends the whole call: the tables before it
    stay as they were committed, the rejected table is left as it was, no
    table after it is processed, and the call is rejected with that error
    and the trace up to the rejection. *)
Theorem failed_table_ends_the_call (modelMap : gmap string Model)
    (pre post : ITableMap) (t : string) (ents : IEntityMap)
    (c c1 c2 : Connection) (tr1 tr2 : list effect) (e : StoreError) :
  saveMany modelMap pre c = (inr tt, c1, tr1) →
  saveTable modelMap t ents c1 = (inl e, c2, tr2) →
  saveMany modelMap (pre ++ (t, ents) :: post) c = (inl e, c1, tr1 ++ tr2) ∧
  c2 = c1 ∧
  (∀ t', dispatched_for t' (tr1 ++ tr2) = dispatched_for t' tr1).
Proof.
  intros Hpre Hturn.
  destruct (saveTable_frame _ _ _ _ _ _ _ Hturn) as (_ & _ & _ & Hrej & _).
  specialize (Hrej e eq_refl). subst c2.
  split; [|split; [done|]].
  - by rewrite saveMany_app, Hpre, saveMany_cons, Hturn.
  - intros t'. rewrite dispatched_for_app.
    destruct (saveTable_trace _ _ _ _ _ _ _ Hturn)
      as [[n ->]|[[n ->]|[(rows & e' & _ & [->| ->])|(rows & n & m & k & ? & _)]]];
      by rewrite ?app_nil_r.
Qed.

Lemma failed_table_ends_the_call_witness :
  let users := [("users", [("7", ({[ "id" := VStr "7"; "a" := VStr "x" ]} : record))])] in
  let c1 := (saveMany Sample.models users Sample.games_failing).1.2 in
  let tr1 := (saveMany Sample.models users Sample.games_failing).2 in
  let tr2 := (saveTable Sample.models "games" [("3", Sample.game "3" "Gamma")]
                c1).2 in
  saveMany Sample.models users Sample.games_failing = (inr tt, c1, tr1) ∧
  saveTable Sample.models "games" [("3", Sample.game "3" "Gamma")] c1
    = (inl (IOFailure "games"), c1, tr2) ∧
  saveMany Sample.models
    (users ++ ("games", [("3", Sample.game "3" "Gamma")]) :: users)
    Sample.games_failing
  = (inl (IOFailure "games"), c1, tr1 ++ tr2).
Proof.
  intros users c1 tr1 tr2.
  assert (saveMany Sample.models users Sample.games_failing = (inr tt, c1, tr1))
    as Hpre by (by vm_compute).
  assert (saveTable Sample.models "games" [("3", Sample.game "3" "Gamma")] c1
          = (inl (IOFailure "games"), c1, tr2)) as Hturn by (by vm_compute).
  split; [exact Hpre|]. split; [exact Hturn|].
  exact (proj1 (failed_table_ends_the_call Sample.models users users "games"
                  [("3", Sample.game "3" "Gamma")] Sample.games_failing
                  c1 c1 tr1 tr2 (IOFailure "games") Hpre Hturn)).
Defined.

(** ** Closing *)

(** C9, as stated, fails: [close] has no guard of its own and awaits
    [this.conn.close()] every time, so on a store that was closed the
    second call is rejected with the store-closed error. *)
Lemma second_close_is_rejected :
  (close Sample.open_db).1.1 = inr tt ∧
  close (close Sample.open_db).1.2
  = (inl StoreClosed, (close Sample.open_db).1.2, [LogClosing None]).
Proof. by vm_compute. Qed.

(** C9, amended. Closing an open store succeeds, closes the connection
    (the stored rows are kept) and clears [dbPath]; once the store is
    closed, [close] is no longer a valid call: it logs its first line,
    awaits the connection's close again and is rejected with the
    store-closed error, leaving the store as it is. *)
Theorem close_once (db : DB) :
  isConnected (conn db) = true →
  ∃ db', close db = (inr tt, db', [LogClosing (dbPath db); LogClosed]) ∧
         isConnected (conn db') = false ∧
         storage (conn db') = storage (conn db) ∧
         dbPath db' = None ∧
         close db' = (inl StoreClosed, db', [LogClosing None]).
Proof.
  intros Hopen. unfold close at 1. unfold conn_close. rewrite Hopen.
  eexists. split; [reflexivity|]. cbn. repeat split; reflexivity.
Qed.

Lemma close_once_witness :
  isConnected (conn Sample.open_db) = true ∧
  ∃ db', close Sample.open_db
         = (inr tt, db', [LogClosing (Some "/tmp/butler.db"); LogClosed]) ∧
         isConnected (conn db') = false ∧
         storage (conn db') = storage (conn Sample.open_db) ∧
         dbPath db' = None ∧
         close db' = (inl StoreClosed, db', [LogClosing None]).
Proof.
  split; [reflexivity|]. apply (close_once Sample.open_db). reflexivity.
Defined.

(** ** Deletion *)

Lemma with_storage_same (c : Connection) : with_storage c (storage c) = c.
Proof. by destruct c. Qed.

Lemma remove_keys_lookup (t : string) (ids : list string)
    (s : gmap (string * string) record) (t' k : string) :
  remove_keys t ids s !! (t', k) =
  if decide (t' = t ∧ k ∈ ids) then None else s !! (t', k).
Proof.
  unfold remove_keys. revert s. induction ids as [|id ids IH]; intros s.
  - cbn. rewrite decide_False; [done|]. by intros [_ ?%elem_of_nil].
  - cbn [foldl]. rewrite IH. destruct (decide (t' = t ∧ k ∈ ids)) as [[-> Hin]|Hn].
    + rewrite decide_True; [done|]. split; [done|by right].
    + destruct (decide (t' = t ∧ k = id)) as [[-> ->]|Hne].
      * rewrite lookup_delete_eq, decide_True; [done|]. split; [done|by left].
      * rewrite lookup_delete_ne by naive_solver.
        rewrite decide_False; [done|].
        intros [-> [->|?]%elem_of_cons]; naive_solver.
Qed.

Lemma remove_keys_absent (t : string) (ids : list string)
    (s : gmap (string * string) record) :
  (∀ k, k ∈ ids → s !! (t, k) = None) → remove_keys t ids s = s.
Proof.
  intros Habs. apply map_eq. intros [t' k]. rewrite remove_keys_lookup.
  destruct (decide _) as [[-> Hin]|]; [|done]. symmetry. by apply Habs.
Qed.

Lemma ids_of_toRemove (ids : list string) :
  omap row_id (map (λ id, ({[ "id" := VStr id ]} : record)) ids) = ids.
Proof.
  induction ids as [|id ids IH]; [done|].
  cbn [map omap list_omap]. unfold row_id at 1.
  rewrite lookup_singleton_eq. cbn. f_equal. exact IH.
Qed.

Section DeleteFacts.

Variable modelMap : gmap string Model.

Lemma deleteTable_healthy (t : string) (ids : list string) (c : Connection) :
  isConnected c = true → (is_Some (modelMap !! t) → t ∉ failing c) →
  deleteTable modelMap t ids c =
  (inr tt, with_storage c (purge modelMap [(t, ids)] (storage c)),
   purge_trace modelMap [(t, ids)]).
Proof.
  intros Hconn Hok. unfold deleteTable, purge, purge_trace.
  cbn [foldl map fst snd]. destruct (modelMap !! t) as [M|].
  - unfold remove. rewrite ids_of_toRemove, Hconn. cbn [negb].
    rewrite bool_decide_eq_false_2 by eauto. done.
  - unfold emit. by rewrite with_storage_same.
Qed.

Lemma deleteTables_healthy (l : list (string * list string)) (c : Connection) :
  isConnected c = true →
  (∀ t ids, (t, ids) ∈ l → is_Some (modelMap !! t) → t ∉ failing c) →
  deleteTables modelMap l c =
  (inr tt, with_storage c (purge modelMap l (storage c)),
   purge_trace modelMap l).
Proof.
  revert c. induction l as [|[t ids] l IH]; intros c Hconn Hok.
  - cbn. by rewrite with_storage_same.
  - cbn [deleteTables]. rewrite eff_bind_run.
    rewrite deleteTable_healthy; [|done|apply (Hok t ids); left].
    rewrite IH; [done|done|].
    intros t' ids' Hin. apply (Hok t' ids'). by right.
Qed.

Lemma purge_cons (t : string) (ids : list string)
    (l : list (string * list string)) (s : gmap (string * string) record) :
  purge modelMap ((t, ids) :: l) s =
  purge modelMap l (purge modelMap [(t, ids)] s).
Proof. reflexivity. Qed.

Lemma purge_single_lookup (t : string) (ids : list string)
    (s : gmap (string * string) record) (t' k : string) :
  purge modelMap [(t, ids)] s !! (t', k) =
  if decide (is_Some (modelMap !! t) ∧ t' = t ∧ k ∈ ids)
  then None else s !! (t', k).
Proof.
  unfold purge. cbn [foldl fst snd]. destruct (modelMap !! t) as [M|] eqn:HM.
  - rewrite remove_keys_lookup. destruct (decide (t' = t ∧ k ∈ ids)) as [Hy|Hn].
    + by rewrite decide_True.
    + rewrite decide_False; [done|]. intros (_ & ? & ?). by apply Hn.
  - rewrite decide_False; [done|]. by intros [[? [=]] _].
Qed.

(** Deleting never brings a row back. *)
Lemma purge_keeps_absent (l : list (string * list string))
    (s : gmap (string * string) record) (x : string * string) :
  s !! x = None → purge modelMap l s !! x = None.
Proof.
  revert s. induction l as [|[t ids] l IH]; intros s Hnone; [done|].
  rewrite purge_cons. apply IH. destruct x as [t' k].
  rewrite purge_single_lookup. by destruct (decide _).
Qed.

Lemma purge_listed (l : list (string * list string))
    (s : gmap (string * string) record) (t k : string) :
  is_Some (modelMap !! t) → listed l t k → purge modelMap l s !! (t, k) = None.
Proof.
  intros HM (ids & Hin & Hk). revert s.
  induction l as [|[t0 ids0] l IH]; intros s; [by apply elem_of_nil in Hin|].
  rewrite purge_cons. apply elem_of_cons in Hin as [[= <- <-]|Hin].
  - apply purge_keeps_absent. rewrite purge_single_lookup.
    by rewrite decide_True.
  - by apply IH.
Qed.

Lemma purge_unlisted (l : list (string * list string))
    (s : gmap (string * string) record) (t k : string) :
  ¬ (is_Some (modelMap !! t) ∧ listed l t k) →
  purge modelMap l s !! (t, k) = s !! (t, k).
Proof.
  revert s. induction l as [|[t0 ids0] l IH]; intros s Hnot; [done|].
  rewrite purge_cons, IH.
  - rewrite purge_single_lookup, decide_False; [done|].
    intros (HM & -> & Hk). apply Hnot. split; [done|].
    exists ids0. split; [left|done].
  - intros [HM (ids & Hin & Hk)]. apply Hnot. split; [done|].
    exists ids. split; [by right|done].
Qed.

Lemma purge_nothing_stored (l : list (string * list string))
    (s : gmap (string * string) record) :
  (∀ t k, is_Some (modelMap !! t) → listed l t k → s !! (t, k) = None) →
  purge modelMap l s = s.
Proof.
  revert s. induction l as [|[t0 ids0] l IH]; intros s Habs; [done|].
  rewrite purge_cons.
  assert (purge modelMap [(t0, ids0)] s = s) as ->.
  { unfold purge. cbn [foldl fst snd].
    destruct (modelMap !! t0) as [M|] eqn:HM; [|done].
    apply remove_keys_absent. intros k Hk. apply Habs; [by rewrite HM|].
    exists ids0. split; [left|done]. }
  apply IH. intros t k HM (ids & Hin & Hk). apply Habs; [done|].
  exists ids. split; [by right|done].
Qed.

End DeleteFacts.

(** C8. On an open store that accepts the writes, [deleteAllEntities]
    succeeds whatever ids the spec lists: from every registered table of the
    spec exactly the listed ids are gone and every other row is as before;
    listing ids that are not stored changes nothing; and running the same
    spec a second time succeeds again and leaves the store unchanged. *)
Theorem delete_absent_id_is_noop (modelMap : gmap string Model)
    (deleteSpec : IDBDeleteSpec) (c : Connection) :
  isConnected c = true →
  (∀ t ids, (t, ids) ∈ entities deleteSpec → t ∉ failing c) →
  ∃ c' tr,
    deleteAllEntities modelMap deleteSpec c = (inr tt, c', tr) ∧
    (∀ t k, is_Some (modelMap !! t) → listed (entities deleteSpec) t k →
            storage c' !! (t, k) = None) ∧
    (∀ t k, ¬ (is_Some (modelMap !! t) ∧ listed (entities deleteSpec) t k) →
            storage c' !! (t, k) = storage c !! (t, k)) ∧
    ((∀ t k, is_Some (modelMap !! t) → listed (entities deleteSpec) t k →
             storage c !! (t, k) = None) → c' = c) ∧
    deleteAllEntities modelMap deleteSpec c' = (inr tt, c', tr).
Proof.
  intros Hconn Hok. unfold deleteAllEntities.
  exists (with_storage c (purge modelMap (entities deleteSpec) (storage c))),
         (purge_trace modelMap (entities deleteSpec)).
  split; [|split; [|split; [|split]]].
  - apply deleteTables_healthy; [done|]. intros t ids Hin _. by eapply Hok.
  - intros t k HM Hl. cbn. by apply purge_listed.
  - intros t k Hnot. cbn. by apply purge_unlisted.
  - intros Habs. rewrite purge_nothing_stored by done.
    apply with_storage_same.
  - rewrite deleteTables_healthy; [|done|].
    + cbn. f_equal. f_equal. unfold with_storage. cbn. f_equal.
      apply purge_nothing_stored. intros t k HM Hl. by apply purge_listed.
    + cbn. intros t ids Hin _. by eapply Hok.
Qed.

(** The example of the spec: [{users: [5]}] removes user 5 and keeps user
    4; applied again it succeeds and changes nothing. *)
Lemma delete_absent_id_is_noop_witness :
  isConnected Sample.some_users = true ∧
  (∀ t ids, (t, ids) ∈ entities Sample.delete_user_5 →
            t ∉ failing Sample.some_users) ∧
  ∃ c' tr,
    deleteAllEntities Sample.models Sample.delete_user_5 Sample.some_users
    = (inr tt, c', tr) ∧
    storage c' !! ("users", "5") = None ∧
    storage c' !! ("users", "4") = Some (Sample.user "4") ∧
    deleteAllEntities Sample.models Sample.delete_user_5 c' = (inr tt, c', tr).
Proof.
  assert (isConnected Sample.some_users = true) as Hconn by reflexivity.
  assert (∀ t ids, (t, ids) ∈ entities Sample.delete_user_5 →
                   t ∉ failing Sample.some_users) as Hok.
  { intros t ids _. cbn. apply not_elem_of_empty. }
  split; [exact Hconn|]. split; [exact Hok|].
  destruct (delete_absent_id_is_noop Sample.models Sample.delete_user_5
              Sample.some_users Hconn Hok)
    as (c' & tr & Hrun & Hgone & Hkept & _ & Hagain).
  exists c', tr. split; [exact Hrun|]. split; [|split; [|exact Hagain]].
  - apply Hgone; [by eexists|]. exists ["5"]. split; left.
  - rewrite Hkept; [reflexivity|].
    intros [_ (ids & Hin & Hk)].
    cbn in Hin. apply list_elem_of_singleton in Hin. injection Hin as ->.
    apply list_elem_of_singleton in Hk. discriminate Hk.
Defined.

(** ** Applying a batch twice *)

Lemma omap_all_None {A B} (f : A → option B) (l : list A) :
  (∀ x, x ∈ l → f x = None) → omap f l = [].
Proof.
  induction l as [|x l IH]; intros Hall; [done|].
  cbn [omap list_omap]. rewrite (Hall x) by left.
  apply IH. intros y Hy. apply Hall. by right.
Qed.

Lemma queued_row_id (M : Model) (ex : gmap string record) (i : string)
    (e r : record) :
  e !! "id" = Some (VStr i) → queued M ex (i, e) = Some r →
  row_id r = Some i.
Proof.
  intros Hid. unfold queued, row_id. cbn [fst snd].
  destruct (ex !! i) as [old|].
  - destruct (compareRecords old e (getColumns M)); [done|].
    intros [= <-]. rewrite merge_single.
    by rewrite (lookup_union_Some_l _ _ _ _ Hid).
  - intros [= <-]. by rewrite lookup_insert_eq.
Qed.


(** Writing the queue of a table whose records carry their ids: the write
    is accepted, each queued row lands under the id of its record, and
    the rows of the other records are as before. *)
Lemma upsert_queue (M : Model) (ex : gmap string record) (t : string)
    (ents : IEntityMap) (s : gmap (string * string) record) :
  NoDup ents.*1 → carries_id ents →
  ∃ s', upsert t (omap (queued M ex) ents) s = Some s' ∧
        (∀ k, k ∉ ents.*1 → s' !! (t, k) = s !! (t, k)) ∧
        (∀ i e, (i, e) ∈ ents →
                s' !! (t, i) = match queued M ex (i, e) with
                               | Some r => Some r
                               | None => s !! (t, i)
                               end).
Proof.
  revert s. induction ents as [|[i e] ents IH]; intros s Hnd Hids.
  - exists s. split; [done|]. split; [done|].
    intros i e Hin. by apply elem_of_nil in Hin.
  - rewrite fmap_cons in Hnd. cbn [fst] in Hnd.
    apply NoDup_cons in Hnd as [Hi Hnd].
    apply Forall_cons in Hids as [Hid Hids]. cbn [fst snd] in Hid.
    cbn [omap list_omap].
    destruct (queued M ex (i, e)) as [r|] eqn:Hq.
    + cbn [upsert]. rewrite (queued_row_id _ _ _ _ _ Hid Hq).
      destruct (IH (<[(t, i) := r]> s) Hnd Hids) as (s' & Hup & Hout & Hin).
      exists s'. split; [done|]. split.
      * intros k Hk. rewrite fmap_cons in Hk. cbn [fst] in Hk.
        apply not_elem_of_cons in Hk as [Hne Hk].
        rewrite (Hout k Hk). apply lookup_insert_ne. congruence.
      * intros j e' [[= -> ->]|Hj]%elem_of_cons.
        -- rewrite Hq, (Hout _ Hi). apply lookup_insert_eq.
        -- rewrite (Hin _ _ Hj). destruct (queued M ex (j, e')); [done|].
           apply lookup_insert_ne. intros [= ->]. apply Hi.
           apply list_elem_of_fmap. by exists (j, e').
    + destruct (IH s Hnd Hids) as (s' & Hup & Hout & Hin).
      exists s'. split; [done|]. split.
      * intros k Hk. rewrite fmap_cons in Hk.
        apply not_elem_of_cons in Hk as [Hne Hk]. by apply Hout.
      * intros j e' [[= -> ->]|Hj]%elem_of_cons.
        -- rewrite Hq. by apply Hout.
        -- by apply Hin.
Qed.

Section TwiceFacts.

Variable modelMap : gmap string Model.

(** Nothing is to do for a table whose records are all up to date. *)
Lemma saveTable_settled (t : string) (ents : IEntityMap) (M : Model)
    (c : Connection) :
  modelMap !! t = Some M → isConnected c = true →
  settled M t ents (storage c) →
  saveTable modelMap t ents c
  = (inr tt, c, [LogSaved t 0 (length ents) (length ents)]).
Proof.
  intros HM Hconn Hset. rewrite (saveTable_known _ _ _ M) by done. cbn zeta.
  rewrite omap_all_None; [done|].
  intros [i e] Hin. unfold queued. cbn [fst snd].
  rewrite (indexed_lookup_entry _ _ _ _ e) by done.
  destruct (Hset i e Hin) as (r & -> & ->). done.
Qed.




End TwiceFacts.




(** * Further properties of the [DB] class *)

(** ** What [saveMany] leaves alone *)

Lemma upsert_keeps_rows (t : string) (rows : list record)
    (s s' : gmap (string * string) record) (x : string * string) :
  upsert t rows s = Some s' → is_Some (s !! x) → is_Some (s' !! x).
Proof.
  revert s. induction rows as [|r rows IH]; intros s Hup Hx; simpl in Hup.
  - by simplify_eq.
  - destruct (row_id r) as [k|]; [|done]. apply (IH _ Hup).
    destruct (decide ((t, k) = x)) as [<-|Hne].
    + rewrite lookup_insert_eq. eauto.
    + by rewrite lookup_insert_ne.
Qed.

Section FrameFacts.

Variable modelMap : gmap string Model.

Lemma saveTable_keeps_rows (t : string) (ents : IEntityMap)
    (c c' : Connection) (r : StoreError + unit) (tr : list effect)
    (x : string * string) :
  saveTable modelMap t ents c = (r, c', tr) →
  is_Some (storage c !! x) → is_Some (storage c' !! x).
Proof.
  intros Hrun Hx.
  destruct (modelMap !! t) as [M|] eqn:HM.
  2:{ rewrite saveTable_unknown in Hrun by done. by injection Hrun as <- <- <-. }
  destruct (isConnected c) eqn:Hconn.
  2:{ rewrite (saveTable_closed _ _ _ M) in Hrun by done.
      by injection Hrun as <- <- <-. }
  rewrite (saveTable_known _ _ _ M) in Hrun by done. cbn zeta in Hrun.
  case_bool_decide.
  - destruct (persist t _ c) as [[[e|[]] c1] tr1] eqn:Hp.
    + injection Hrun as <- <- <-. by apply persist_rejected in Hp as [-> _].
    + injection Hrun as <- <- <-.
      apply persist_ok in Hp as (_ & _ & _ & s & Hup & ->).
      by eapply upsert_keeps_rows.
  - by injection Hrun as <- <- <-.
Qed.

End FrameFacts.

(** X1. Whatever the outcome of [saveMany], it leaves the connection open
    or closed as it was and writes only to registered tables that the
    batch names: the rows of every other table are exactly as before. *)
Theorem saveMany_touches_only_named_tables (modelMap : gmap string Model)
    (batch : ITableMap) (c : Connection) (t k : string) :
  t ∉ batch.*1 ∨ modelMap !! t = None →
  storage (saveMany modelMap batch c).1.2 !! (t, k) = storage c !! (t, k) ∧
  isConnected (saveMany modelMap batch c).1.2 = isConnected c.
Proof.
  intros Ht.
  destruct (saveMany modelMap batch c) as [[r c'] tr] eqn:Hrun.
  destruct (saveMany_frame _ _ _ _ _ _ Hrun) as (Hconn & _ & Hother).
  cbn [fst snd]. split; [by apply Hother|done].
Qed.

Lemma saveMany_touches_only_named_tables_witness :
  ("users" ∉ Sample.five_games.*1 ∨ Sample.models !! "users" = None) ∧
  storage (saveMany Sample.models Sample.five_games Demo.users_failing).1.2
    !! ("users", "4") = Some (Sample.user "4").
Proof.
  assert ("users" ∉ Sample.five_games.*1 ∨ Sample.models !! "users" = None)
    as Ht.
  { left. intros Hin. apply list_elem_of_singleton in Hin. discriminate Hin. }
  split; [exact Ht|].
  rewrite (proj1 (saveMany_touches_only_named_tables Sample.models
                    Sample.five_games Demo.users_failing "users" "4" Ht)).
  reflexivity.
Defined.

(** X2. [saveMany] never removes a row: every row stored before the call is
    still stored after it, whether the call resolves or is rejected. *)
Theorem saveMany_never_removes_a_row (modelMap : gmap string Model)
    (batch : ITableMap) (c : Connection) (x : string * string) :
  is_Some (storage c !! x) →
  is_Some (storage (saveMany modelMap batch c).1.2 !! x).
Proof.
  revert c. induction batch as [|[t ents] batch IH]; intros c Hx; [done|].
  rewrite saveMany_cons.
  destruct (saveTable modelMap t ents c) as [[[e|[]] c1] tr1] eqn:Hst.
  - cbn [fst snd]. by eapply saveTable_keeps_rows.
  - specialize (IH c1 (saveTable_keeps_rows _ _ _ _ _ _ _ _ Hst Hx)).
    by destruct (saveMany modelMap batch c1) as [[r2 c2] tr2].
Qed.

Lemma saveMany_never_removes_a_row_witness :
  is_Some (storage Sample.two_games !! ("games", "2")) ∧
  is_Some (storage (saveMany Sample.models Sample.tidy_batch
                      Sample.two_games).1.2 !! ("games", "2")).
Proof.
  assert (is_Some (storage Sample.two_games !! ("games", "2"))) as Hx
    by (by eexists).
  split; [exact Hx|].
  exact (saveMany_never_removes_a_row Sample.models Sample.tidy_batch
           Sample.two_games ("games", "2") Hx).
Defined.



(** ** The summary line and the commit event *)

Section AccountFacts.

Variable modelMap : gmap string Model.

Lemma saveTable_dispatch_accounted (t : string) (ents : IEntityMap)
    (c c' : Connection) (r : StoreError + unit)
    (tr pre post : list effect) (t' : string) (updated : list (option value)) :
  saveTable modelMap t ents c = (r, c', tr) →
  tr = pre ++ Dispatch t' updated :: post →
  t' = t ∧ is_Some (modelMap !! t) ∧
  ∃ k, post = [LogSaved t (length updated) (length ents) k] ∧
       length updated + k = length ents.
Proof.
  intros Hrun Heq.
  destruct (modelMap !! t) as [M|] eqn:HM.
  2:{ rewrite saveTable_unknown in Hrun by done. injection Hrun as <- <- <-.
      by destruct pre as [|? [|? ?]]. }
  destruct (isConnected c) eqn:Hconn.
  2:{ rewrite (saveTable_closed _ _ _ M) in Hrun by done.
      injection Hrun as <- <- <-. by destruct pre. }
  rewrite (saveTable_known _ _ _ M) in Hrun by done. cbn zeta in Hrun.
  destruct (collect_queued M (indexed t ents.*1 (storage c)) ents)
    as [Hrows Hcount].
  rewrite Hrows in Hcount. set (rows := omap _ ents) in *.
  case_bool_decide as Hlen.
  - destruct (persist t rows c) as [[[e|[]] c1] tr1] eqn:Hp.
    + injection Hrun as <- <- <-. apply persist_rejected in Hp as [_ ->].
      by destruct pre as [|? [|? ?]].
    + injection Hrun as <- <- <-. apply persist_ok in Hp as (_ & _ & -> & _).
      destruct pre as [|? [|? [|? [|? ?]]]]; simplify_eq/=.
      split; [done|]. split; [by eexists|].
      unfold pluck_id. rewrite length_map.
      eexists. split; [reflexivity|]. lia.
  - injection Hrun as <- <- <-. by destruct pre as [|? [|? ?]].
Qed.

End AccountFacts.

(** X4. Every commit event in the trace of [saveMany] belongs to a
    registered table of the batch and is followed at once by that table's
    summary line; the line reports as many saved rows as the event lists
    ids, the number of records of the table as the total, and the two
    counts it gives add up to that total. *)
Theorem commit_is_followed_by_its_summary (modelMap : gmap string Model)
    (batch : ITableMap) (c c' : Connection) (r : StoreError + unit)
    (tr pre post : list effect) (t : string) (updated : list (option value)) :
  saveMany modelMap batch c = (r, c', tr) →
  tr = pre ++ Dispatch t updated :: post →
  ∃ ents k post',
    (t, ents) ∈ batch ∧ is_Some (modelMap !! t) ∧
    post = LogSaved t (length updated) (length ents) k :: post' ∧
    length updated + k = length ents.
Proof.
  revert c c' r tr pre. induction batch as [|[t1 ents1] batch IH];
    intros c c' r tr pre.
  - cbn. intros [= <- <- <-] Heq. by destruct pre.
  - rewrite saveMany_cons. intros Hrun Heq.
    destruct (saveTable modelMap t1 ents1 c) as [[r1 c1] tr1] eqn:Hst.
    destruct r1 as [e|[]].
    + injection Hrun as <- <- <-.
      destruct (saveTable_dispatch_accounted _ _ _ _ _ _ _ _ _ _ _ Hst Heq)
        as (-> & HM & k & -> & Hk).
      exists ents1, k, []. split; [left|done].
    + destruct (saveMany modelMap batch c1) as [[r2 c2] tr2] eqn:Hsm.
      injection Hrun as <- <- <-.
      apply app_eq_inv in Heq as [(l & Htr1 & Hl)|(l & Hpre & Htr2)].
      * destruct l as [|ev l].
        -- cbn in Hl.
           destruct (IH _ _ _ _ [] Hsm (eq_sym Hl))
             as (ents & k & post' & Hin & HM & -> & Hk).
           exists ents, k, post'. split; [by right|done].
        -- injection Hl as <- ->.
           destruct (saveTable_dispatch_accounted _ _ _ _ _ _ _ _ _ _ _ Hst Htr1)
             as (-> & HM & k & -> & Hk).
           exists ents1, k, tr2. split; [left|done].
      * destruct (IH _ _ _ _ _ Hsm Htr2)
          as (ents & k & post' & Hin & HM & -> & Hk).
        exists ents, k, post'. split; [by right|done].
Qed.

Lemma commit_is_followed_by_its_summary_witness :
  let run := saveMany Sample.models Sample.five_games Sample.two_games in
  let updated := [Some (VStr "3"); Some (VStr "4"); Some (VStr "5")] in
  ∃ pre, run.2 = pre ++ Dispatch "games" updated :: [LogSaved "games" 3 5 2] ∧
  ∃ ents k post',
    ("games", ents) ∈ Sample.five_games ∧ is_Some (Sample.models !! "games") ∧
    [LogSaved "games" 3 5 2]
    = LogSaved "games" (length updated) (length ents) k :: post' ∧
    length updated + k = length ents.
Proof.
  intros run updated.
  assert (∃ pre, run.2 = pre ++ Dispatch "games" updated
                           :: [LogSaved "games" 3 5 2]) as [pre Htr].
  { eexists [_]. by vm_compute. }
  exists pre. split; [exact Htr|].
  apply (commit_is_followed_by_its_summary Sample.models Sample.five_games
           Sample.two_games run.1.2 run.1.1 run.2 pre _ "games" updated);
    [by vm_compute|exact Htr].
Defined.

(** ** Creating a whole table *)





(** X6. When every record of a registered table already has a stored row
    that the comparator finds up to date, [saveMany] on that table resolves
    without writing: [repo.persist] is not called, even on a table whose
    writes the store would reject, no commit event is dispatched, the store
    is left exactly as it is, and the summary line counts every record as
    skipped. *)
Theorem up_to_date_table_is_not_written (modelMap : gmap string Model)
    (M : Model) (t : string) (ents : IEntityMap) (c : Connection) :
  modelMap !! t = Some M →
  isConnected c = true →
  settled M t ents (storage c) →
  saveMany modelMap [(t, ents)] c
  = (inr tt, c, [LogSaved t 0 (length ents) (length ents)]).
Proof.
  intros HM Hconn Hset.
  rewrite saveMany_cons, (saveTable_settled _ _ _ M) by done. done.
Qed.

Lemma up_to_date_table_is_not_written_witness :
  saveMany Sample.models [("users", [("4", Sample.user "4")])]
    Demo.users_failing
  = (inr tt, Demo.users_failing, [LogSaved "users" 0 1 1]).
Proof.
  apply (up_to_date_table_is_not_written Sample.models Sample.usersModel
           "users" [("4", Sample.user "4")] Demo.users_failing).
  - reflexivity.
  - reflexivity.
  - intros i e Hin. apply list_elem_of_singleton in Hin.
    injection Hin as -> ->. exists (Sample.user "4").
    split; [reflexivity|]. by vm_compute.
Defined.

(** ** Saving and deleting one record *)


Section OneFacts.

Variable modelMap : gmap string Model.


End OneFacts.





(** ** More on deletion *)

Section DeleteMore.

Variable modelMap : gmap string Model.

Lemma deleteTables_app (pre post : list (string * list string))
    (c : Connection) :
  deleteTables modelMap (pre ++ post) c =
  match deleteTables modelMap pre c with
  | (inl e, c1, tr1) => (inl e, c1, tr1)
  | (inr _, c1, tr1) =>
      match deleteTables modelMap post c1 with
      | (r, c2, tr2) => (r, c2, tr1 ++ tr2)
      end
  end.
Proof.
  revert c. induction pre as [|[t ids] pre IH]; intros c.
  - cbn. by destruct (deleteTables modelMap post c) as [[r c2] tr2].
  - rewrite <- app_comm_cons. cbn [deleteTables]. rewrite !eff_bind_run.
    destruct (deleteTable modelMap t ids c) as [[[e|[]] c1] tr1]; [done|].
    rewrite IH.
    destruct (deleteTables modelMap pre c1) as [[[e|[]] c2] tr2]; [done|].
    destruct (deleteTables modelMap post c2) as [[r c3] tr3].
    by rewrite app_assoc.
Qed.

(** One turn of the deletion loop, whatever its outcome. *)
Lemma deleteTable_any (t : string) (ids : list string) (c c' : Connection)
    (r : StoreError + unit) (tr : list effect) :
  deleteTable modelMap t ids c = (r, c', tr) →
  isConnected c' = isConnected c ∧ failing c' = failing c ∧
  (∀ x v, storage c' !! x = Some v → storage c !! x = Some v) ∧
  Forall is_delete_effect tr ∧
  (∀ e, r = inl e → c' = c) ∧
  (modelMap !! t = None → r = inr tt ∧ c' = c ∧ tr = [LogSkipDelete t (length ids)]).
Proof.
  unfold deleteTable. destruct (modelMap !! t) as [M|].
  2:{ intros [= <- <- <-]. repeat split; try done.
      by apply Forall_singleton. }
  unfold remove. rewrite ids_of_toRemove.
  destruct (isConnected c) eqn:Hconn; cbn [negb].
  2:{ intros [= <- <- <-]. rewrite Hconn. repeat split; try done.
      by apply Forall_singleton. }
  case_bool_decide.
  { intros [= <- <- <-]. rewrite Hconn. repeat split; try done.
    by apply Forall_singleton. }
  intros [= <- <- <-]. cbn. repeat split; try done.
  - intros [t' k] v. rewrite remove_keys_lookup. by destruct (decide _).
  - by apply Forall_singleton.
Qed.

Lemma deleteTables_any (l : list (string * list string)) (c c' : Connection)
    (r : StoreError + unit) (tr : list effect) :
  deleteTables modelMap l c = (r, c', tr) →
  isConnected c' = isConnected c ∧ failing c' = failing c ∧
  (∀ x v, storage c' !! x = Some v → storage c !! x = Some v) ∧
  Forall is_delete_effect tr.
Proof.
  revert c c' r tr. induction l as [|[t ids] l IH]; intros c c' r tr.
  - cbn. intros [= <- <- <-]. repeat split; try done.
  - cbn [deleteTables]. rewrite eff_bind_run.
    destruct (deleteTable modelMap t ids c) as [[r1 c1] tr1] eqn:Hturn.
    destruct (deleteTable_any _ _ _ _ _ _ Hturn)
      as (Hc & Hf & Hsub & Htr & _ & _).
    destruct r1 as [e|[]]; [by intros [= <- <- <-]|].
    destruct (deleteTables modelMap l c1) as [[r2 c2] tr2] eqn:Hrest.
    intros [= <- <- <-].
    destruct (IH _ _ _ _ Hrest) as (Hc2 & Hf2 & Hsub2 & Htr2).
    split; [congruence|]. split; [congruence|]. split; [by auto|].
    by apply Forall_app.
Qed.



End DeleteMore.

(** X9. [deleteEntity t i] does to the store what [deleteAllEntities] does
    on the spec that lists the single id [i] under [t]: for a registered
    table the two calls agree on outcome, connection and trace; for an
    unknown table both resolve and leave the store alone, and only the
    wording of the skip line differs. *)
Theorem deleteEntity_is_singleton_delete (modelMap : gmap string Model)
    (t i : string) (c : Connection) :
  (deleteEntity modelMap t i c).1
    = (deleteAllEntities modelMap {| entities := [(t, [i])] |} c).1 ∧
  (is_Some (modelMap !! t) →
   deleteEntity modelMap t i c
   = deleteAllEntities modelMap {| entities := [(t, [i])] |} c) ∧
  (modelMap !! t = None →
   deleteEntity modelMap t i c = (inr tt, c, [LogSkipSingleDelete t]) ∧
   deleteAllEntities modelMap {| entities := [(t, [i])] |} c
   = (inr tt, c, [LogSkipDelete t 1])).
Proof.
  unfold deleteAllEntities, deleteEntity. cbn [entities deleteTables].
  rewrite eff_bind_run. unfold deleteTable.
  destruct (modelMap !! t) as [M|] eqn:HM.
  - cbn [map].
    destruct (remove t [({[ "id" := VStr i ]} : record)] c)
      as [[[e|[]] c1] tr1]; cbn; rewrite ?app_nil_r; split; try done;
      split; try done; by intros [=].
  - cbn. split; [done|]. split; [by intros [? [=]]|done].
Qed.

(** X10. Whatever its outcome, [deleteAllEntities] only deletes: it adds no
    row and changes none (every row stored after the call was stored, with
    the same content, before it), it leaves the connection open or closed
    as it was, and its trace holds only skip lines and removals, never a
    write and never a commit event. *)
Theorem deleteAllEntities_only_deletes (modelMap : gmap string Model)
    (deleteSpec : IDBDeleteSpec) (c : Connection) :
  (∀ x v, storage (deleteAllEntities modelMap deleteSpec c).1.2 !! x = Some v →
          storage c !! x = Some v) ∧
  isConnected (deleteAllEntities modelMap deleteSpec c).1.2 = isConnected c ∧
  Forall is_delete_effect (deleteAllEntities modelMap deleteSpec c).2 ∧
  (∀ t, dispatched_for t (deleteAllEntities modelMap deleteSpec c).2 = []).
Proof.
  unfold deleteAllEntities.
  destruct (deleteTables modelMap (entities deleteSpec) c) as [[r c'] tr]
    eqn:Hrun.
  destruct (deleteTables_any _ _ _ _ _ _ Hrun) as (Hc & _ & Hsub & Htr).
  cbn [fst snd]. split; [done|]. split; [done|]. split; [done|].
  intros t. clear Hrun. induction Htr as [|ev tr Hev _ IH]; [done|].
  unfold dispatched_for in *. cbn [omap list_omap].
  by destruct ev.
Qed.



(** X12. A table name with no registered model does not make
    [deleteAllEntities] fail: wherever it stands in the spec, its turn
    leaves the connection alone, logs the skip with the number of ids
    skipped, and the loop goes on with the tables after it. *)
Theorem unknown_table_delete_is_skipped (modelMap : gmap string Model)
    (pre post : list (string * list string)) (t : string) (ids : list string)
    (c : Connection) :
  modelMap !! t = None →
  deleteAllEntities modelMap {| entities := pre ++ (t, ids) :: post |} c =
  match deleteAllEntities modelMap {| entities := pre |} c with
  | (inl e, c1, tr1) => (inl e, c1, tr1)
  | (inr _, c1, tr1) =>
      match deleteAllEntities modelMap {| entities := post |} c1 with
      | (r, c2, tr2) => (r, c2, tr1 ++ LogSkipDelete t (length ids) :: tr2)
      end
  end.
Proof.
  intros Hnone. unfold deleteAllEntities. cbn [entities].
  rewrite deleteTables_app.
  destruct (deleteTables modelMap pre c) as [[[e|[]] c1] tr1]; [done|].
  cbn [deleteTables]. rewrite eff_bind_run.
  destruct (deleteTable modelMap t ids c1) as [[r1 c1'] tr1'] eqn:Hturn.
  destruct (deleteTable_any _ _ _ _ _ _ _ Hturn)
    as (_ & _ & _ & _ & _ & Hunk).
  destruct (Hunk Hnone) as (-> & -> & ->).
  by destruct (deleteTables modelMap post c1) as [[r c2] tr2].
Qed.

Lemma unknown_table_delete_is_skipped_witness :
  Sample.models !! "mystery" = None ∧
  deleteAllEntities Sample.models
    {| entities := [("mystery", ["1"; "2"]); ("users", ["5"])] |}
    Sample.some_users
  = (inr tt,
     (deleteAllEntities Sample.models Sample.delete_user_5
        Sample.some_users).1.2,
     [LogSkipDelete "mystery" 2; RemoveOk "users" ["5"]]).
Proof.
  split; [reflexivity|].
  etrans;
    [exact (unknown_table_delete_is_skipped Sample.models []
              [("users", ["5"])] "mystery" ["1"; "2"] Sample.some_users
              eq_refl)|].
  by vm_compute.
Defined.



(** ** One batch or one call per record *)

Lemma with_storage_twice (c : Connection)
    (s1 s2 : gmap (string * string) record) :
  with_storage (with_storage c s1) s2 = with_storage c s2.
Proof. reflexivity. Qed.

Lemma queued_ext (M : Model) (ex1 ex2 : gmap string record) (i : string)
    (e : record) :
  ex1 !! i = ex2 !! i → queued M ex1 (i, e) = queued M ex2 (i, e).
Proof. intros Heq. unfold queued. cbn [fst snd]. by rewrite Heq. Qed.

Lemma indexed_single (t i : string) (s : gmap (string * string) record) :
  indexed t [i] s !! i = s !! (t, i).
Proof. rewrite indexed_lookup, decide_True; [done|left]. Qed.

(** Where the rows are after the records were saved one by one. *)
Lemma stored_after_each (M : Model) (t : string) (ents : IEntityMap)
    (s : gmap (string * string) record) :
  NoDup ents.*1 → carries_id ents →
  (∀ t' k, (t' ≠ t ∨ k ∉ ents.*1) →
     foldl (stored_after_one M t) s ents !! (t', k) = s !! (t', k)) ∧
  (∀ i e, (i, e) ∈ ents →
     foldl (stored_after_one M t) s ents !! (t, i)
     = match queued M (indexed t [i] s) (i, e) with
       | Some r => Some r
       | None => s !! (t, i)
       end).
Proof.
  revert s. induction ents as [|[i e] ents IH]; intros s Hnd Hids.
  - split; [done|]. intros i e Hin. by apply elem_of_nil in Hin.
  - rewrite fmap_cons in Hnd. cbn [fst] in Hnd.
    apply NoDup_cons in Hnd as [Hi Hnd].
    apply Forall_cons in Hids as [Hid Hids]. cbn [fst snd] in Hid.
    cbn [foldl]. set (s1 := stored_after_one M t s (i, e)).
    assert (∀ t' k, (t' ≠ t ∨ k ≠ i) → s1 !! (t', k) = s !! (t', k)) as Hs1.
    { intros t' k Hk. unfold s1, stored_after_one. cbn [fst].
      destruct (queued M _ (i, e)); [|done].
      apply lookup_insert_ne. intros [= -> ->]. by destruct Hk. }
    assert (s1 !! (t, i) = match queued M (indexed t [i] s) (i, e) with
                           | Some r => Some r
                           | None => s !! (t, i)
                           end) as Hs1i.
    { unfold s1, stored_after_one. cbn [fst].
      destruct (queued M _ (i, e)); [|done]. apply lookup_insert_eq. }
    destruct (IH s1 Hnd Hids) as [Hout Hin]. split.
    + intros t' k Hk. rewrite fmap_cons in Hk. cbn [fst] in Hk.
      rewrite Hout.
      * apply Hs1. destruct Hk as [?|Hk]; [by left|right].
        intros ->. apply Hk. left.
      * destruct Hk as [?|Hk]; [by left|right].
        intros ?. apply Hk. by right.
    + intros j e' [[= -> ->]|Hj]%elem_of_cons.
      * rewrite Hout by (by right). exact Hs1i.
      * assert (j ≠ i) as Hne.
        { intros ->. apply Hi. apply list_elem_of_fmap. by exists (i, e'). }
        rewrite (Hin _ _ Hj).
        rewrite (queued_ext M (indexed t [j] s1) (indexed t [j] s)).
        2:{ rewrite !indexed_single. apply Hs1. by right. }
        destruct (queued M _ (j, e')); [done|]. apply Hs1. by right.
Qed.

Section EachFacts.

Variable modelMap : gmap string Model.

(** An accepted [saveOne] of a record that carries its id. *)
Lemma saveOne_accepted (M : Model) (t i : string) (e : record)
    (c : Connection) :
  modelMap !! t = Some M → isConnected c = true → t ∉ failing c →
  e !! "id" = Some (VStr i) →
  (saveOne modelMap t i e c).1
  = (inr tt, with_storage c (stored_after_one M t (storage c) (i, e))).
Proof.
  intros HM Hconn Hok Hid. unfold saveOne.
  rewrite saveMany_cons, (saveTable_known _ _ _ M) by done. cbn zeta.
  unfold stored_after_one. cbn [omap list_omap fmap list_fmap fst].
  destruct (queued M (indexed t [i] (storage c)) (i, e)) as [r|] eqn:Hq.
  - cbn [length]. rewrite bool_decide_eq_true_2 by lia.
    unfold persist. rewrite Hconn. cbn [negb].
    rewrite bool_decide_eq_false_2 by done.
    cbn [upsert]. by rewrite (queued_row_id _ _ _ _ _ Hid Hq).
  - cbn. by rewrite with_storage_same.
Qed.

Lemma saveEach_accepted (M : Model) (t : string) (ents : IEntityMap)
    (c : Connection) :
  modelMap !! t = Some M → isConnected c = true → t ∉ failing c →
  carries_id ents →
  (saveEach modelMap t ents c).1
  = (inr tt, with_storage c (foldl (stored_after_one M t) (storage c) ents)).
Proof.
  intros HM. revert c. induction ents as [|[i e] ents IH];
    intros c Hconn Hok Hids.
  - cbn. by rewrite with_storage_same.
  - apply Forall_cons in Hids as [Hid Hids]. cbn [fst snd] in Hid.
    cbn [saveEach]. rewrite eff_bind_run.
    pose proof (saveOne_accepted M t i e c HM Hconn Hok Hid) as Hone.
    destruct (saveOne modelMap t i e c) as [[r1 c1] tr1].
    cbn [fst] in Hone. injection Hone as -> ->.
    specialize (IH (with_storage c (stored_after_one M t (storage c) (i, e)))
                  Hconn Hok Hids).
    destruct (saveEach modelMap t ents _) as [[r2 c2] tr2].
    cbn [fst] in IH. injection IH as -> ->. done.
Qed.

End EachFacts.

(** X14. For a registered table on an open store that accepts the writes,
    and records that carry their own ids, saving the table in one batch
    and saving its records one [saveOne] at a time both resolve and leave
    exactly the same store. *)
Theorem batch_stores_what_single_saves_store (modelMap : gmap string Model)
    (M : Model) (t : string) (ents : IEntityMap) (c : Connection) :
  modelMap !! t = Some M →
  isConnected c = true →
  t ∉ failing c →
  NoDup ents.*1 →
  carries_id ents →
  (saveMany modelMap [(t, ents)] c).1.1 = inr tt ∧
  (saveEach modelMap t ents c).1 = (saveMany modelMap [(t, ents)] c).1.
Proof.
  intros HM Hconn Hok Hnd Hids.
  rewrite (saveEach_accepted _ M) by done.
  destruct (stored_after_each M t ents (storage c) Hnd Hids) as [Hout Hin].
  destruct (upsert_queue M (indexed t ents.*1 (storage c)) t ents (storage c)
              Hnd Hids) as (s' & Hup & Hout' & Hin').
  assert (s' = foldl (stored_after_one M t) (storage c) ents) as Hsame.
  { apply map_eq. intros [t' k].
    destruct (decide (t' = t)) as [->|Hne].
    - destruct (decide (k ∈ ents.*1)) as [Hk|Hk].
      + apply list_elem_of_fmap in Hk as ([i e] & -> & Hie). cbn [fst].
        rewrite (Hin _ _ Hie), (Hin' _ _ Hie).
        rewrite (queued_ext M (indexed t [i] (storage c))
                   (indexed t ents.*1 (storage c))); [done|].
        by rewrite indexed_single, (indexed_lookup_entry _ _ _ _ e).
      + rewrite Hout by (by right). by apply Hout'.
    - rewrite Hout by (by left). by eapply upsert_other_table. }
  rewrite saveMany_cons, (saveTable_known _ _ _ M) by done. cbn zeta.
  case_bool_decide as Hlen.
  - unfold persist. rewrite Hconn. cbn [negb].
    rewrite bool_decide_eq_false_2 by done. rewrite Hup. cbn.
    by rewrite Hsame.
  - cbn. split; [done|]. f_equal. rewrite <- Hsame.
    destruct (omap _ ents); [|cbn in Hlen; lia].
    cbn in Hup. injection Hup as <-. by rewrite with_storage_same.
Qed.

Lemma batch_stores_what_single_saves_store_witness :
  let ents : IEntityMap :=
    [ ("1", Sample.game "1" "Alpha II"); ("3", Sample.game "3" "Gamma") ] in
  NoDup ents.*1 ∧ carries_id ents ∧
  (saveEach Sample.models "games" ents Sample.two_games).1
  = (saveMany Sample.models [("games", ents)] Sample.two_games).1.
Proof.
  intros ents.
  assert (NoDup ents.*1) as Hnd.
  { apply (bool_decide_unpack _). by vm_compute. }
  assert (carries_id ents) as Hids.
  { unfold carries_id. repeat apply Forall_cons_2; try apply Forall_nil_2;
      reflexivity. }
  split; [exact Hnd|]. split; [exact Hids|].
  apply (batch_stores_what_single_saves_store Sample.models Sample.gamesModel
           "games" ents Sample.two_games);
    [reflexivity|reflexivity|apply not_elem_of_empty|exact Hnd|exact Hids].
Defined.

(** ** Opening the store *)


